(** * neosynth: a shallow embedding of [src/lib.rs]

    The speech mixer of neosynth ([SpeechMixer]) and the [Neosynth] facade,
    modelled as state-passing functions over a [World] that records the
    speech queue, the media player, the selected voice and a chronological
    log of every observable action (queue pops, synthesis requests, player
    calls and event-sink notifications).  The external WinRT engines
    (speech synthesizer, media player, voice catalog) are an [Env] record of
    functions: each call either succeeds or fails with a [NeosynthError]. *)

From Stdlib Require Import String List ZArith Bool Lia Reals.
Import ListNotations.
Open Scope string_scope.

(** ** Errors and data *)

Inductive NeosynthError : Type :=
| RuntimeError (msg : string) (code : Z)
| OperationError (msg : string).

(** [NeosynthResult<T> = Result<T, NeosynthError>] *)
Inductive NeosynthResult (T : Type) : Type :=
| Ok (v : T)
| Err (e : NeosynthError).
Arguments Ok {T} v.
Arguments Err {T} e.

Inductive SynthState : Type := Ready | Busy | Paused.

(** [Windows.Media.Playback.MediaPlaybackState] *)
Inductive MediaPlaybackState : Type :=
| PSNone | PSOpening | PSBuffering | PSPlaying | PSPaused.

(** [impl From<MediaPlaybackState> for SynthState] *)
Definition SynthState_from (player_state : MediaPlaybackState) : SynthState :=
  match player_state with
  | PSBuffering | PSOpening | PSPlaying => Busy
  | PSPaused => Paused
  | _ => Ready
  end.

Inductive SpeechElement : Type :=
| Text (s : string)
| Ssml (s : string)
| Bookmark (s : string)
| Audio (s : string).

(** [SpeechUtterance { content: Vec<SpeechElement> }] *)
Record SpeechUtterance := mkUtterance { content : list SpeechElement }.

(** [add_utterance(&mut self, utterance: &mut Self)]:
    [self.content.append(&mut utterance.content)]; both updated objects
    are returned, [self] first. *)
Definition add_utterance (self utterance : SpeechUtterance)
  : SpeechUtterance * SpeechUtterance :=
  (mkUtterance (content self ++ content utterance), mkUtterance []).

(** [VoiceInfo] (id, language, display name) of a catalog voice. *)
Record VoiceInfo := mkVoiceInfo {
  id : string;
  language : string;
  name : string
}.

(** A synthesized in-memory stream: what was synthesized, and how. *)
Record SpeechSynthesisStream := mkStream {
  stream_text : string;
  stream_is_ssml : bool
}.

(** The media sources the code hands to [MediaPlayer::SetSource]. *)
Inductive MediaSource : Type :=
| FromStream (s : SpeechSynthesisStream)
| FromStorageFile (path : string)
| FromEmptyStream.

(** Every observable action, in the order it happens. *)
Inductive Action : Type :=
| APop (r : option SpeechElement)
| ASynthesize (text : string) (is_ssml : bool)
| ASetSource (src : MediaSource)
| APause
| APlay
| ASetVoice (v : VoiceInfo)
| AOnStateChanged (s : SynthState)
| AOnBookmarkReached (b : string).

(** The external engines. *)
Record Env := mkEnv {
  (** [PlaybackSession()?.PlaybackState()?]: [None] when it succeeds. *)
  env_session_error : option NeosynthError;
  (** [SynthesizeTextToStreamAsync] / [SynthesizeSsmlToStreamAsync] then [get()]. *)
  env_synthesize : string -> bool -> NeosynthResult SpeechSynthesisStream;
  (** [StorageFile::GetFileFromPathAsync(..)?.get()?]: [None] when it succeeds. *)
  env_open_file : string -> option NeosynthError;
  (** [SetSource]: the playback state reached (autoplay is on), or an error. *)
  env_set_source : MediaSource -> MediaPlaybackState -> NeosynthResult MediaPlaybackState;
  (** [Pause] and [Play]. *)
  env_pause : MediaPlaybackState -> NeosynthResult MediaPlaybackState;
  env_play : MediaPlaybackState -> NeosynthResult MediaPlaybackState;
  (** [SpeechSynthesizer::AllVoices()]. *)
  env_all_voices : NeosynthResult (list VoiceInfo);
  (** [synthesizer.SetVoice(..)?]: [None] when it succeeds. *)
  env_set_voice : VoiceInfo -> option NeosynthError;
  (** [synthesizer.Voice()?]: [None] when it succeeds. *)
  env_voice_error : option NeosynthError
}.

Record World := mkWorld {
  speech_queue : list SpeechElement;   (* front of the queue first *)
  playback_state : MediaPlaybackState;
  voice : VoiceInfo;
  log : list Action                    (* oldest action first *)
}.

(** ** A state and error monad *)

Definition M (A : Type) : Type := World -> NeosynthResult A * World.

Definition ret {A} (a : A) : M A := fun w => (Ok a, w).
Definition fail {A} (e : NeosynthError) : M A := fun w => (Err e, w).
Definition bind {A B} (m : M A) (k : A -> M B) : M B :=
  fun w => match m w with
           | (Ok a, w') => k a w'
           | (Err e, w') => (Err e, w')
           end.

Notation "'let*' x := m 'in' k" := (bind m (fun x => k))
  (at level 200, x name, m at level 100, k at level 200).
Notation "m ;; k" := (bind m (fun _ => k)) (at level 100, right associativity).

(** The [?] operator on a plain result. *)
Definition lift {A} (r : NeosynthResult A) : M A :=
  fun w => (r, w).

(** [.ok()]: drop the result of a computation, keep its effects. *)
Definition ok {A} (m : M A) : M unit :=
  fun w => (Ok tt, snd (m w)).

Definition record (a : Action) : M unit :=
  fun w => (Ok tt, mkWorld (speech_queue w) (playback_state w) (voice w) (log w ++ [a])).

Definition set_playback_state (st : MediaPlaybackState) : M unit :=
  fun w => (Ok tt, mkWorld (speech_queue w) st (voice w) (log w)).

Definition get_world : M World := fun w => (Ok w, w).

(** Turn an optional error of a fallible call with no result into [?]. *)
Definition check (o : option NeosynthError) : M unit :=
  match o with
  | Some e => fail e
  | None => ret tt
  end.

(** ** The speech queue ([SegQueue<SpeechElement>]) *)

Definition push (elem : SpeechElement) : M unit :=
  fun w => (Ok tt, mkWorld (speech_queue w ++ [elem]) (playback_state w) (voice w) (log w)).

Fixpoint push_all (elems : list SpeechElement) : M unit :=
  match elems with
  | [] => ret tt
  | e :: rest => push e ;; push_all rest
  end.

(** [pop()] takes the front element, or nothing when the queue is empty. *)
Definition pop : M (option SpeechElement) :=
  fun w =>
    match speech_queue w with
    | [] => (Ok None, mkWorld [] (playback_state w) (voice w) (log w ++ [APop None]))
    | e :: rest =>
        (Ok (Some e), mkWorld rest (playback_state w) (voice w) (log w ++ [APop (Some e)]))
    end.

(** ** The event sink ([NsEventSink]) *)

Definition on_state_changed (s : SynthState) : M unit := record (AOnStateChanged s).
Definition on_bookmark_reached (b : string) : M unit := record (AOnBookmarkReached b).

Section Mixer.

Variable env : Env.

(** ** [SpeechMixer] *)

(** [get_state]: [self.player.PlaybackSession()?.PlaybackState()?.into()] *)
Definition get_state : M SynthState :=
  check (env_session_error env) ;;
  let* w := get_world in
  ret (SynthState_from (playback_state w)).

(** [self.player.SetSource(..)?] *)
Definition player_set_source (src : MediaSource) : M unit :=
  record (ASetSource src) ;;
  let* w := get_world in
  let* st := lift (env_set_source env src (playback_state w)) in
  set_playback_state st.

Definition generate_speech_stream (text : string) (is_ssml : bool)
  : M SpeechSynthesisStream :=
  record (ASynthesize text is_ssml) ;;
  lift (env_synthesize env text is_ssml).

Definition speak_content (text : string) (is_ssml : bool) : M unit :=
  let* stream := generate_speech_stream text is_ssml in
  player_set_source (FromStream stream).

(** [process_speech_element]; its call to [process_queue] is the
    parameter [process_queue], tied up below. *)
Definition process_speech_element (process_queue : M unit) (element : SpeechElement)
  : M unit :=
  match element with
  | Text text => speak_content text false
  | Ssml ssml => speak_content ssml true
  | Bookmark bookmark =>
      on_bookmark_reached bookmark ;;
      process_queue
  | Audio filename =>
      check (env_open_file env filename) ;;
      player_set_source (FromStorageFile filename)
  end.

(** [process_queue] and its mutual recursion through bookmarks.  Every
    recursive call follows a successful pop, so [S (length queue)] rounds
    always suffice; [fuel] only makes the recursion structural. *)
Fixpoint process_queue_n (fuel : nat) : M unit :=
  match fuel with
  | O => ret tt
  | S fuel' =>
      let* x := pop in
      match x with
      | Some elem => process_speech_element (process_queue_n fuel') elem
      | None => on_state_changed Ready ;; ret tt
      end
  end.

Definition process_queue : M unit :=
  fun w => process_queue_n (S (length (speech_queue w))) w.

Definition speak (utterance : list SpeechElement) : M unit :=
  push_all utterance ;;
  let* st := get_state in
  match st with
  | Ready =>
      let* x := pop in
      match x with
      | Some element => process_speech_element process_queue element
      | None => ret tt
      end
  | _ => ret tt
  end.

(** ** Player notifications ([register_player_events]) *)

(** [MediaEnded] and [MediaFailed]: [mixer.process_queue().ok(); Ok(())] *)
Definition on_media_ended : M unit := ok process_queue.
Definition on_media_failed : M unit := ok process_queue.

(** ** The [Neosynth] facade *)

Definition pause : M unit :=
  record APause ;;
  let* w := get_world in
  let* st := lift (env_pause env (playback_state w)) in
  set_playback_state st.

Definition resume : M unit :=
  record APlay ;;
  let* w := get_world in
  let* st := lift (env_play env (playback_state w)) in
  set_playback_state st.

(** [loop { if self.mixer.speech_queue.pop().is_none() { break; } }] *)
Fixpoint drain_n (fuel : nat) : M unit :=
  match fuel with
  | O => ret tt
  | S fuel' =>
      let* x := pop in
      match x with
      | None => ret tt
      | Some _ => drain_n fuel'
      end
  end.

Definition drain_queue : M unit :=
  fun w => drain_n (S (length (speech_queue w))) w.

(** [stop]: pause, drop the queued elements, play an empty in-memory
    stream, then [process_queue].  Creating the empty stream
    ([InMemoryRandomAccessStream::new()?]) is taken to succeed; only the
    [SetSource] call on it may fail. *)
Definition stop : M unit :=
  pause ;;
  drain_queue ;;
  player_set_source FromEmptyStream ;;
  process_queue.

Definition get_voices : M (list VoiceInfo) := lift (env_all_voices env).

(** [set_voice]: [self.mixer.synthesizer.SetVoice(..)?]; on success the
    synthesizer's voice is [v]. *)
Definition set_voice (v : VoiceInfo) : M unit :=
  record (ASetVoice v) ;;
  check (env_set_voice env v) ;;
  fun w => (Ok tt, mkWorld (speech_queue w) (playback_state w) v (log w)).

(** [get_voice]: [self.mixer.synthesizer.Voice()?.into()] *)
Definition get_voice : M VoiceInfo :=
  check (env_voice_error env) ;;
  let* w := get_world in ret (voice w).

(** [get_voice_str]: [Ok(self.get_voice()?.id)] *)
Definition get_voice_str : M string :=
  let* v := get_voice in ret (id v).

Definition set_voice_str (id' : string) : M unit :=
  let* voices := get_voices in
  match find (fun v => String.eqb (id v) id') voices with
  | Some v => set_voice v
  | None => fail (OperationError "Invalid voice token given")
  end.

(** [Neosynth::speak]: [self.mixer.speak(utterance.content)] *)
Definition neosynth_speak (utterance : SpeechUtterance) : M unit :=
  speak (content utterance).


End Mixer.

(** ** The Python boundary *)

(** The Python exceptions the module raises. *)
Inductive PyErr : Type :=
| PyOSError (msg : string) (code : Z)
| PyRuntimeError (msg : string)
| PyTypeError (msg : string).

(** [impl From<NeosynthError> for PyErr] *)
Definition pyerr_from (error : NeosynthError) : PyErr :=
  match error with
  | RuntimeError msg code => PyOSError msg code
  | OperationError msg => PyRuntimeError msg
  end.

(** ** Speaking rate ([get_rate] / [set_rate]) *)

(** The synthesizer's speaking-rate option as the code sees it.  The
    [f64] values are modelled as real numbers, so the rounding of [f64]
    arithmetic is left out.  [re_prosody] is the result of
    [is_prosody_supported()]; the options' state is the stored
    [SpeakingRate]; [re_speaking_rate] is [Options()?.SpeakingRate()?] read
    from a state, and [re_set_speaking_rate] is
    [Options()?.SetSpeakingRate(x)?], giving the new state or an error. *)
Record RateEngine := mkRateEngine {
  re_prosody : NeosynthResult bool;
  re_speaking_rate : R -> NeosynthResult R;
  re_set_speaking_rate : R -> R -> NeosynthResult R
}.

Definition prosody_error : string :=
  "The current version of OneCore synthesizer does not support the prosody option".

(** [Neosynth::get_rate] *)
Definition get_rate (eng : RateEngine) (opts : R) : NeosynthResult R :=
  match re_prosody eng with
  | Err e => Err e
  | Ok false => Ok (-1)%R
  | Ok true =>
      match re_speaking_rate eng opts with
      | Ok rate => Ok (rate / (6 / 100))%R
      | Err e => Err e
      end
  end.

(** [Neosynth::set_rate] *)
Definition set_rate (eng : RateEngine) (opts : R) (value : R) : NeosynthResult unit * R :=
  match re_prosody eng with
  | Err e => (Err e, opts)
  | Ok true =>
      match re_set_speaking_rate eng opts (value * (6 / 100))%R with
      | Ok opts' => (Ok tt, opts')
      | Err e => (Err e, opts)
      end
  | Ok false => (Err (OperationError prosody_error), opts)
  end.

(** ** Concrete engines and worlds *)

Definition voice_a : VoiceInfo := mkVoiceInfo "voice-a" "en-US" "Voice A".
Definition voice_b : VoiceInfo := mkVoiceInfo "voice-b" "fr-FR" "Voice B".

(** Engines where every call succeeds; a new source starts playing. *)
Definition good_env : Env := mkEnv
  None
  (fun text is_ssml => Ok (mkStream text is_ssml))
  (fun _ => None)
  (fun _ _ => Ok PSPlaying)
  (fun _ => Ok PSPaused)
  (fun _ => Ok PSPlaying)
  (Ok [voice_a; voice_b])
  (fun _ => None)
  None.

(** The same engines, except that synthesizing ["bad"] fails. *)
Definition synth_error : NeosynthError := RuntimeError "synthesis failed" (-2147467259)%Z.

Definition bad_text_env : Env := mkEnv
  None
  (fun text is_ssml =>
     if String.eqb text "bad" then Err synth_error else Ok (mkStream text is_ssml))
  (fun _ => None)
  (fun _ _ => Ok PSPlaying)
  (fun _ => Ok PSPaused)
  (fun _ => Ok PSPlaying)
  (Ok [voice_a; voice_b])
  (fun _ => None)
  None.

(** The same engines as [good_env], except that [Pause] fails. *)
Definition pause_error : NeosynthError := RuntimeError "pause failed" (-2147418113)%Z.

Definition pause_fail_env : Env := mkEnv
  None
  (fun text is_ssml => Ok (mkStream text is_ssml))
  (fun _ => None)
  (fun _ _ => Ok PSPlaying)
  (fun _ => Err pause_error)
  (fun _ => Ok PSPlaying)
  (Ok [voice_a; voice_b])
  (fun _ => None)
  None.

(** Whether a call of the engines succeeded. *)
Definition is_ok {A} (r : NeosynthResult A) : bool :=
  match r with Ok _ => true | Err _ => false end.

(** An idle player (no source) with the given queue. *)
Definition idle_world (q : list SpeechElement) : World := mkWorld q PSNone voice_a [].

(** Number of elements actually taken from the queue in a log. *)
Fixpoint count_pops (l : list Action) : nat :=
  match l with
  | [] => 0
  | APop (Some _) :: l' => S (count_pops l')
  | _ :: l' => count_pops l'
  end.

Example speak_example :
  speak good_env [Text "a"; Bookmark "b1"; Text "c"] (idle_world []) =
  (Ok tt, mkWorld [Bookmark "b1"; Text "c"] PSPlaying voice_a
            [APop (Some (Text "a")); ASynthesize "a" false;
             ASetSource (FromStream (mkStream "a" false))]).
Proof. reflexivity. Qed.

Example media_ended_example :
  on_media_ended good_env (mkWorld [Bookmark "b1"; Text "c"] PSNone voice_a []) =
  (Ok tt, mkWorld [] PSPlaying voice_a
            [APop (Some (Bookmark "b1")); AOnBookmarkReached "b1";
             APop (Some (Text "c")); ASynthesize "c" false;
             ASetSource (FromStream (mkStream "c" false))]).
Proof. reflexivity. Qed.

Example stop_example :
  stop good_env (mkWorld [Text "x"] PSPlaying voice_a []) =
  (Ok tt, mkWorld [] PSPlaying voice_a
            [APause; APop (Some (Text "x")); APop None;
             ASetSource FromEmptyStream; APop None; AOnStateChanged Ready]).
Proof. reflexivity. Qed.

(** ** General lemmas *)

Section Lemmas.

Variable env : Env.

(** Any fuel above the queue length gives the same run of [process_queue_n]. *)
Lemma process_queue_n_fuel (n m : nat) (w : World) :
  length (speech_queue w) < n -> length (speech_queue w) < m ->
  process_queue_n env n w = process_queue_n env m w.
Proof.
  revert m w; induction n as [|n IH]; intros m w Hn Hm; [inversion Hn|].
  destruct m as [|m]; [inversion Hm|].
  destruct w as [q ps v l]; simpl in *.
  unfold bind at 1 3, pop; simpl.
  destruct q as [|e rest]; [reflexivity|].
  simpl in Hn, Hm.
  destruct e as [t|t|b|t]; try reflexivity.
  simpl. unfold bind, on_bookmark_reached, record; simpl.
  apply IH; simpl; lia.
Qed.

Lemma process_queue_n_enough (n : nat) (w : World) :
  length (speech_queue w) < n -> process_queue_n env n w = process_queue env w.
Proof.
  intros H. unfold process_queue. apply process_queue_n_fuel; [exact H | lia].
Qed.

(** Draining pops every queued element, then one empty pop. *)
Lemma drain_n_spec (n : nat) (q : list SpeechElement) (ps : MediaPlaybackState)
  (v : VoiceInfo) (l : list Action) :
  length q < n ->
  drain_n n (mkWorld q ps v l) =
  (Ok tt, mkWorld [] ps v (l ++ map (fun e => APop (Some e)) q ++ [APop None])).
Proof.
  revert n l; induction q as [|e rest IH]; intros n l Hn;
    (destruct n as [|n]; [inversion Hn|]).
  - reflexivity.
  - simpl in Hn. simpl. unfold bind at 1, pop; simpl.
    rewrite IH by lia. rewrite <- app_assoc. reflexivity.
Qed.

Lemma drain_queue_spec (q : list SpeechElement) (ps : MediaPlaybackState)
  (v : VoiceInfo) (l : list Action) :
  drain_queue (mkWorld q ps v l) =
  (Ok tt, mkWorld [] ps v (l ++ map (fun e => APop (Some e)) q ++ [APop None])).
Proof. unfold drain_queue. apply drain_n_spec. simpl. lia. Qed.

(** [process_queue] on an empty queue: the empty pop and a [Ready] notification. *)
Lemma process_queue_empty (ps : MediaPlaybackState) (v : VoiceInfo) (l : list Action) :
  process_queue env (mkWorld [] ps v l) =
  (Ok tt, mkWorld [] ps v (l ++ [APop None; AOnStateChanged Ready])).
Proof. cbn. rewrite <- app_assoc. reflexivity. Qed.

(** [process_queue] on a non-empty queue pops the front element and
    processes it, with [process_queue] itself as the bookmark continuation. *)
Lemma process_queue_cons (e : SpeechElement) (rest : list SpeechElement)
  (ps : MediaPlaybackState) (v : VoiceInfo) (l : list Action) :
  process_queue env (mkWorld (e :: rest) ps v l) =
  process_speech_element env (process_queue env) e
    (mkWorld rest ps v (l ++ [APop (Some e)])).
Proof.
  unfold process_queue at 1; simpl.
  unfold bind at 1, pop; simpl.
  destruct e as [t|t|b|t]; reflexivity.
Qed.

Lemma push_all_spec (elems q : list SpeechElement) (ps : MediaPlaybackState)
  (v : VoiceInfo) (l : list Action) :
  push_all elems (mkWorld q ps v l) = (Ok tt, mkWorld (q ++ elems) ps v l).
Proof.
  revert q; induction elems as [|e rest IH]; intros q.
  - rewrite app_nil_r. reflexivity.
  - simpl. unfold bind at 1, push; simpl.
    rewrite IH, <- app_assoc. reflexivity.
Qed.

Lemma find_voice_absent (vs : list VoiceInfo) (id' : string) :
  ~ In id' (map id vs) -> find (fun v => String.eqb (id v) id') vs = None.
Proof.
  induction vs as [|v vs IH]; intros Hn; [reflexivity|].
  simpl in *. destruct (String.eqb_spec (id v) id') as [Heq|Hne].
  - exfalso. apply Hn. left. exact Heq.
  - apply IH. intros Hin. apply Hn. right. exact Hin.
Qed.

End Lemmas.

(** ** The claims *)

(** C1 (amended).  When the element popped by a [MediaEnded] or
    [MediaFailed] notification is a [Text] or [Ssml] element whose synthesis
    fails, the handler discards the error ([.ok()]) and returns normally, but
    draining stops at the failed element: nothing more is popped, no source is
    set, no [Ready] is reported, and the rest of the queue stays queued. *)
Theorem notification_synthesis_failure_stops_drain (env : Env) (w : World)
  (t : string) (is_ssml : bool) (rest : list SpeechElement) (e : NeosynthError)
  (Hq : speech_queue w = (if is_ssml then Ssml t else Text t) :: rest)
  (Hs : env_synthesize env t is_ssml = Err e) :
  let w' := mkWorld rest (playback_state w) (voice w)
              (log w ++ [APop (Some (if is_ssml then Ssml t else Text t));
                         ASynthesize t is_ssml]) in
  on_media_ended env w = (Ok tt, w') /\ on_media_failed env w = (Ok tt, w').
Proof.
  destruct w as [q ps v l]; simpl in Hq; subst q.
  unfold on_media_ended, on_media_failed, ok.
  rewrite process_queue_cons.
  destruct is_ssml; simpl;
    unfold speak_content, generate_speech_stream, bind, record, lift; simpl;
    rewrite Hs; simpl; rewrite <- app_assoc; split; reflexivity.
Qed.

Lemma notification_synthesis_failure_stops_drain_witness :
  speech_queue (mkWorld [Text "bad"; Text "good"] PSNone voice_a []) =
    (if false then Ssml "bad" else Text "bad") :: [Text "good"] /\
  env_synthesize bad_text_env "bad" false = Err synth_error /\
  (let w' := mkWorld [Text "good"] PSNone voice_a
               ([] ++ [APop (Some (if false then Ssml "bad" else Text "bad"));
                       ASynthesize "bad" false]) in
   on_media_ended bad_text_env (mkWorld [Text "bad"; Text "good"] PSNone voice_a []) =
     (Ok tt, w') /\
   on_media_failed bad_text_env (mkWorld [Text "bad"; Text "good"] PSNone voice_a []) =
     (Ok tt, w')).
Proof.
  split; [reflexivity|]. split; [reflexivity|].
  exact (notification_synthesis_failure_stops_drain bad_text_env
           (mkWorld [Text "bad"; Text "good"] PSNone voice_a [])
           "bad" false [Text "good"] synth_error eq_refl eq_refl).
Defined.

(** C1 counterexample: the queue [Text "bad"; Text "good"] with a failing
    synthesis of ["bad"]; after the [MediaEnded] handler the element
    [Text "good"] is still queued, was never synthesized, and no [Ready] was
    reported. *)
Lemma notification_synthesis_failure_counterexample :
  on_media_ended bad_text_env (mkWorld [Text "bad"; Text "good"] PSNone voice_a []) =
  (Ok tt, mkWorld [Text "good"] PSNone voice_a
            [APop (Some (Text "bad")); ASynthesize "bad" false]).
Proof. vm_compute. reflexivity. Qed.

(** C2.  Processing a [Bookmark] notifies the sink first and then runs the
    dispatcher in-line; so from the queue [Bookmark b; Text t; ...] one call
    of [process_queue] pops the bookmark, notifies it, pops the text and
    synthesizes and plays it, with no playback notification in between. *)
Theorem bookmark_then_text_same_pass (env : Env) (k : M unit) (w : World)
  (b t : string) (rest : list SpeechElement)
  (Hq : speech_queue w = Bookmark b :: Text t :: rest) :
  process_speech_element env k (Bookmark b) w =
    k (mkWorld (speech_queue w) (playback_state w) (voice w)
         (log w ++ [AOnBookmarkReached b])) /\
  process_queue env w =
    speak_content env t false
      (mkWorld rest (playback_state w) (voice w)
         (log w ++ [APop (Some (Bookmark b)); AOnBookmarkReached b;
                    APop (Some (Text t))])).
Proof.
  split; [reflexivity|].
  destruct w as [q ps v l]; simpl in Hq; subst q.
  rewrite process_queue_cons. simpl.
  unfold bind at 1, on_bookmark_reached, record; simpl.
  rewrite process_queue_cons. simpl.
  rewrite <- !app_assoc. reflexivity.
Qed.

Lemma bookmark_then_text_same_pass_witness :
  speech_queue (idle_world [Bookmark "b1"; Text "c"]) = Bookmark "b1" :: Text "c" :: [] /\
  (process_speech_element good_env (ret tt) (Bookmark "b1") (idle_world [Bookmark "b1"; Text "c"]) =
     ret tt (mkWorld [Bookmark "b1"; Text "c"] PSNone voice_a ([] ++ [AOnBookmarkReached "b1"])) /\
   process_queue good_env (idle_world [Bookmark "b1"; Text "c"]) =
     speak_content good_env "c" false
       (mkWorld [] PSNone voice_a
          ([] ++ [APop (Some (Bookmark "b1")); AOnBookmarkReached "b1";
                  APop (Some (Text "c"))]))).
Proof.
  split; [reflexivity|].
  exact (bookmark_then_text_same_pass good_env (ret tt)
           (idle_world [Bookmark "b1"; Text "c"]) "b1" "c" [] eq_refl).
Defined.

(** C3 (amended).  [speak] first pushes all elements.  If reading the
    playback state fails, it returns that error and nothing is popped.  If
    the state is [Busy] or [Paused], it only enqueues.  If it is [Ready],
    [speak] itself pops one element and processes it (a [Bookmark] goes on
    draining through [process_queue]), or, on an empty queue, returns [Ok]. *)
Theorem speak_dispatches_only_when_ready (env : Env) (elems : list SpeechElement)
  (w : World) :
  let q := (speech_queue w ++ elems)%list in
  let ps := playback_state w in
  speak env elems w =
  match env_session_error env with
  | Some e => (Err e, mkWorld q ps (voice w) (log w))
  | None =>
      match SynthState_from ps with
      | Ready =>
          match q with
          | [] => (Ok tt, mkWorld [] ps (voice w) (log w ++ [APop None]))
          | e :: rest =>
              process_speech_element env (process_queue env) e
                (mkWorld rest ps (voice w) (log w ++ [APop (Some e)]))
          end
      | _ => (Ok tt, mkWorld q ps (voice w) (log w))
      end
  end.
Proof.
  destruct w as [q0 ps v l]; simpl.
  unfold speak, bind at 1. rewrite push_all_spec.
  unfold get_state, check.
  destruct (env_session_error env) as [e|]; [reflexivity|].
  unfold bind, ret, get_world; simpl.
  destruct (SynthState_from ps); try reflexivity.
  unfold pop; simpl.
  destruct (q0 ++ elems)%list; reflexivity.
Qed.

(** C3 counterexample: from an idle player, [speak [Bookmark "b"; Text "t"]]
    takes two elements from the queue, not exactly one. *)
Lemma speak_pops_more_than_one_counterexample :
  SynthState_from (playback_state (idle_world [])) = Ready /\
  count_pops (log (snd (speak good_env [Bookmark "b"; Text "t"] (idle_world [])))) = 2.
Proof. split; vm_compute; reflexivity. Qed.

(** Every element of a queue as it is discarded by a pop. *)
Definition discarded (q : list SpeechElement) : list Action :=
  map (fun e => APop (Some e)) q.

(** The whole run of [stop], for every outcome of the player calls. *)
Lemma stop_run (env : Env) (w : World) :
  let q := speech_queue w in
  stop env w =
  match env_pause env (playback_state w) with
  | Err e => (Err e, mkWorld q (playback_state w) (voice w) (log w ++ [APause]))
  | Ok st1 =>
      match env_set_source env FromEmptyStream st1 with
      | Err e =>
          (Err e, mkWorld [] st1 (voice w)
                    (log w ++ [APause] ++ discarded q ++
                     [APop None; ASetSource FromEmptyStream]))
      | Ok st2 =>
          (Ok tt, mkWorld [] st2 (voice w)
                    (log w ++ [APause] ++ discarded q ++
                     [APop None; ASetSource FromEmptyStream;
                      APop None; AOnStateChanged Ready]))
      end
  end.
Proof.
  destruct w as [q ps v l]; simpl.
  unfold stop, pause, bind at 1 2 3 4 5 6, record, get_world, lift; simpl.
  destruct (env_pause env ps) as [st1|e]; [|reflexivity].
  unfold set_playback_state; simpl.
  rewrite drain_queue_spec.
  unfold player_set_source, bind, record, get_world, lift; simpl.
  destruct (env_set_source env FromEmptyStream st1) as [st2|e].
  - unfold set_playback_state. rewrite process_queue_empty.
    unfold discarded. cbn. rewrite <- !app_assoc. cbn. reflexivity.
  - unfold discarded. cbn. rewrite <- !app_assoc. cbn. reflexivity.
Qed.

(** C4 (amended).  [stop] first pauses the player (on failure it returns the
    error with the queue untouched), then pops and discards every queued
    element, then sets an empty stream as the source, then runs
    [process_queue] once, which finds the queue empty and reports [Ready]. *)
Theorem stop_sequence (env : Env) (w : World) :
  let q := speech_queue w in
  stop env w =
  match env_pause env (playback_state w) with
  | Err e => (Err e, mkWorld q (playback_state w) (voice w) (log w ++ [APause]))
  | Ok st1 =>
      match env_set_source env FromEmptyStream st1 with
      | Err e =>
          (Err e, mkWorld [] st1 (voice w)
                    (log w ++ [APause] ++ discarded q ++
                     [APop None; ASetSource FromEmptyStream]))
      | Ok st2 =>
          (Ok tt, mkWorld [] st2 (voice w)
                    (log w ++ [APause] ++ discarded q ++
                     [APop None; ASetSource FromEmptyStream;
                      APop None; AOnStateChanged Ready]))
      end
  end.
Proof. exact (stop_run env w). Qed.

(** C4 counterexample: [stop] pauses before it discards anything: with
    [Text "x"] queued the pause comes first in the log, and when the pause
    fails the queue is left as it was. *)
Lemma stop_order_counterexample :
  log (snd (stop good_env (mkWorld [Text "x"] PSPlaying voice_a []))) =
    [APause; APop (Some (Text "x")); APop None;
     ASetSource FromEmptyStream; APop None; AOnStateChanged Ready] /\
  stop pause_fail_env (mkWorld [Text "x"] PSPlaying voice_a []) =
    (Err pause_error, mkWorld [Text "x"] PSPlaying voice_a [APause]).
Proof. split; vm_compute; reflexivity. Qed.

(** [stop] succeeded, left the queue empty, and its last action was the
    notification [on_state_changed(Ready)]. *)
Definition stopped_ready (r : NeosynthResult unit * World) : Prop :=
  fst r = Ok tt /\ speech_queue (snd r) = [] /\
  exists l, log (snd r) = (l ++ [AOnStateChanged Ready])%list.

Lemma stop_ready_once (env : Env)
  (Hp : forall st, is_ok (env_pause env st) = true)
  (Hs : forall st, is_ok (env_set_source env FromEmptyStream st) = true)
  (w : World) :
  stopped_ready (stop env w).
Proof.
  rewrite stop_run.
  specialize (Hp (playback_state w)).
  destruct (env_pause env (playback_state w)) as [st1|e]; [|discriminate].
  specialize (Hs st1).
  destruct (env_set_source env FromEmptyStream st1) as [st2|e]; [|discriminate].
  split; [reflexivity|]. split; [reflexivity|].
  exists (log w ++ [APause] ++ discarded (speech_queue w) ++
          [APop None; ASetSource FromEmptyStream; APop None])%list.
  simpl. rewrite <- app_assoc. simpl. rewrite <- app_assoc. reflexivity.
Qed.

(** C5.  With player calls that succeed, [stop] twice in a row succeeds
    both times, each time leaves the queue empty and ends by reporting
    [Ready] to the event sink. *)
Theorem stop_idempotent (env : Env)
  (Hp : forall st, is_ok (env_pause env st) = true)
  (Hs : forall st, is_ok (env_set_source env FromEmptyStream st) = true)
  (w : World) :
  stopped_ready (stop env w) /\ stopped_ready (stop env (snd (stop env w))).
Proof. split; apply stop_ready_once; assumption. Qed.

Lemma stop_idempotent_witness :
  (forall st, is_ok (env_pause good_env st) = true) /\
  (forall st, is_ok (env_set_source good_env FromEmptyStream st) = true) /\
  (stopped_ready (stop good_env (idle_world [Text "a"; Bookmark "b"])) /\
   stopped_ready (stop good_env (snd (stop good_env (idle_world [Text "a"; Bookmark "b"]))))).
Proof.
  split; [intros st; reflexivity|]. split; [intros st; reflexivity|].
  apply (stop_idempotent good_env (fun st => eq_refl) (fun st => eq_refl)).
Defined.

(** C6.  [process_queue] on an empty queue pops nothing, notifies the sink
    with [on_state_changed(Ready)] and returns [Ok]; the player, the voice
    and the queue are untouched. *)
Theorem process_queue_empty_reports_ready (env : Env) (w : World)
  (Hq : speech_queue w = []) :
  process_queue env w =
  (Ok tt, mkWorld [] (playback_state w) (voice w)
            (log w ++ [APop None; AOnStateChanged Ready])%list).
Proof.
  destruct w as [q ps v l]; simpl in Hq; subst q.
  apply process_queue_empty.
Qed.

Lemma process_queue_empty_reports_ready_witness :
  speech_queue (idle_world []) = [] /\
  process_queue good_env (idle_world []) =
  (Ok tt, mkWorld [] PSNone voice_a ([] ++ [APop None; AOnStateChanged Ready])%list).
Proof.
  split; [reflexivity|].
  exact (process_queue_empty_reports_ready good_env (idle_world []) eq_refl).
Defined.

(** C7.  When the voice catalog lists voices [vs] and [id'] is the id of
    none of them, [set_voice_str id'] fails with
    [OperationError "Invalid voice token given"] and leaves the world, and so
    the selected voice, unchanged. *)
Theorem set_voice_str_unknown_id (env : Env) (w : World) (vs : list VoiceInfo)
  (id' : string)
  (Hv : env_all_voices env = Ok vs) (Hn : ~ In id' (map id vs)) :
  set_voice_str env id' w = (Err (OperationError "Invalid voice token given"), w).
Proof.
  unfold set_voice_str, get_voices, bind, lift. rewrite Hv.
  rewrite find_voice_absent by exact Hn. reflexivity.
Qed.

Lemma set_voice_str_unknown_id_witness :
  env_all_voices good_env = Ok [voice_a; voice_b] /\
  ~ In "voice-z" (map id [voice_a; voice_b]) /\
  set_voice_str good_env "voice-z" (idle_world []) =
    (Err (OperationError "Invalid voice token given"), idle_world []).
Proof.
  assert (Hn : ~ In "voice-z" (map id [voice_a; voice_b]))
    by (simpl; intros [H|[H|H]]; [discriminate H|discriminate H|exact H]).
  split; [reflexivity|]. split; [exact Hn|].
  exact (set_voice_str_unknown_id good_env (idle_world []) [voice_a; voice_b]
           "voice-z" eq_refl Hn).
Defined.

(** C9 (amended).  With a readable playback state that maps to [Ready],
    [speak []] on an empty queue returns [Ok] and notifies the sink of
    nothing: its only action is the empty pop, with no
    [on_state_changed(Ready)] (unlike [process_queue] on an empty queue).
    When elements are still queued, [speak []] pops the front one and
    processes it, as [process_queue] would. *)
Theorem speak_empty_no_notification (env : Env) (w : World)
  (Hs : env_session_error env = None)
  (Hr : SynthState_from (playback_state w) = Ready) :
  speak env [] w =
  match speech_queue w with
  | [] => (Ok tt, mkWorld [] (playback_state w) (voice w) (log w ++ [APop None])%list)
  | e :: rest =>
      process_speech_element env (process_queue env) e
        (mkWorld rest (playback_state w) (voice w) (log w ++ [APop (Some e)])%list)
  end.
Proof.
  destruct w as [q ps v l]; simpl in Hr |- *.
  unfold speak, bind at 1. rewrite push_all_spec, app_nil_r.
  unfold get_state, check. rewrite Hs.
  unfold bind, ret, get_world; simpl. rewrite Hr.
  unfold pop; simpl. destruct q; reflexivity.
Qed.

Lemma speak_empty_no_notification_witness :
  env_session_error good_env = None /\
  SynthState_from (playback_state (idle_world [])) = Ready /\
  speak good_env [] (idle_world []) =
    (Ok tt, mkWorld [] PSNone voice_a ([] ++ [APop None])%list).
Proof.
  split; [reflexivity|]. split; [reflexivity|].
  exact (speak_empty_no_notification good_env (idle_world []) eq_refl eq_refl).
Defined.

(** C9 counterexample: a [speak] whose first synthesis fails leaves
    [Bookmark "b"] queued with the player still idle ([Ready]); a following
    [speak []] then pops that bookmark and notifies the sink twice. *)
Lemma speak_empty_counterexample :
  let w1 := snd (speak bad_text_env [Text "bad"; Bookmark "b"] (idle_world [])) in
  SynthState_from (playback_state w1) = Ready /\
  fst (speak bad_text_env [] w1) = Ok tt /\
  log (snd (speak bad_text_env [] w1)) =
    (log w1 ++ [APop (Some (Bookmark "b")); AOnBookmarkReached "b";
                APop None; AOnStateChanged Ready])%list.
Proof. vm_compute. split; [reflexivity|]. split; reflexivity. Qed.

(** C10.  [a.add_utterance(b)] moves [b]'s elements to the end of [a]:
    [a] holds its old content followed by [b]'s, and [b] is left empty. *)
Theorem add_utterance_moves (a b : SpeechUtterance) :
  content (fst (add_utterance a b)) = (content a ++ content b)%list /\
  content (snd (add_utterance a b)) = [].
Proof. split; reflexivity. Qed.

(** ** Further properties of the code *)

Lemma find_voice_present (vs : list VoiceInfo) (id' : string) :
  In id' (map id vs) ->
  exists v, find (fun v => String.eqb (id v) id') vs = Some v /\ id v = id' /\ In v vs.
Proof.
  induction vs as [|v vs IH]; simpl; [intros []|].
  intros Hin. destruct (String.eqb_spec (id v) id') as [Heq|Hne].
  - exists v. auto.
  - destruct Hin as [Heq|Hin]; [contradiction|].
    destruct (IH Hin) as (v' & Hf & Hid & Hv). exists v'. auto.
Qed.

Lemma find_voice_some (vs : list VoiceInfo) (id' : string) (v : VoiceInfo) :
  find (fun v => String.eqb (id v) id') vs = Some v -> id v = id' /\ In v vs.
Proof.
  intros Hf. destruct (find_some _ _ Hf) as [Hin Heq].
  apply String.eqb_eq in Heq. auto.
Qed.

(** [set_voice_str] selects a voice of the catalog carrying exactly the
    requested id, and touches neither the queue nor the player.  When it
    fails (the catalog cannot be read, no voice has the id, or [SetVoice]
    fails) the selected voice, the queue and the player are unchanged. *)
Theorem set_voice_str_outcome (env : Env) (w : World) (id' : string) :
  match set_voice_str env id' w with
  | (Ok _, w') =>
      id (voice w') = id' /\
      (exists vs, env_all_voices env = Ok vs /\ In (voice w') vs) /\
      speech_queue w' = speech_queue w /\ playback_state w' = playback_state w
  | (Err _, w') =>
      voice w' = voice w /\
      speech_queue w' = speech_queue w /\ playback_state w' = playback_state w
  end.
Proof.
  unfold set_voice_str, get_voices, bind, lift.
  destruct (env_all_voices env) as [vs|e] eqn:Hv; [|auto].
  destruct (find (fun v => String.eqb (id v) id') vs) as [v|] eqn:Hf; [|simpl; auto].
  destruct (find_voice_some vs id' v Hf) as [Hid Hin].
  unfold set_voice, bind, record, check, fail, ret; simpl.
  destruct (env_set_voice env v); simpl; [auto|].
  split; [exact Hid|]. split; [exists vs; auto|]. auto.
Qed.

(** [speak] while the player is not [Ready]: only the pushes. *)
Lemma speak_not_ready_step (env : Env) (elems q : list SpeechElement)
  (ps : MediaPlaybackState) (v : VoiceInfo) (l : list Action)
  (Hs : env_session_error env = None) (Hr : SynthState_from ps <> Ready) :
  speak env elems (mkWorld q ps v l) = (Ok tt, mkWorld (q ++ elems)%list ps v l).
Proof.
  unfold speak, bind at 1. rewrite push_all_spec.
  unfold get_state, check. rewrite Hs.
  unfold bind, ret, get_world; simpl.
  destruct (SynthState_from ps); [contradiction|reflexivity|reflexivity].
Qed.

(** While the player is [Busy] or [Paused], successive [speak] calls only
    append to the queue, in call order, with no other effect. *)
Theorem speak_not_ready_appends (env : Env) (a b : list SpeechElement) (w : World)
  (Hs : env_session_error env = None)
  (Hr : SynthState_from (playback_state w) <> Ready) :
  speak env b (snd (speak env a w)) =
  (Ok tt, mkWorld (speech_queue w ++ a ++ b)%list (playback_state w) (voice w) (log w)).
Proof.
  destruct w as [q ps v l]; simpl in Hr.
  rewrite speak_not_ready_step by assumption. simpl.
  rewrite speak_not_ready_step by assumption. rewrite app_assoc. reflexivity.
Qed.

Lemma speak_not_ready_appends_witness :
  env_session_error good_env = None /\
  SynthState_from (playback_state (mkWorld [Text "x"] PSPlaying voice_a [])) <> Ready /\
  speak good_env [Bookmark "b"] (snd (speak good_env [Text "a"]
                                        (mkWorld [Text "x"] PSPlaying voice_a []))) =
  (Ok tt, mkWorld ([Text "x"] ++ [Text "a"] ++ [Bookmark "b"])%list PSPlaying voice_a []).
Proof.
  assert (Hr : SynthState_from (playback_state (mkWorld [Text "x"] PSPlaying voice_a [])) <> Ready)
    by (simpl; discriminate).
  split; [reflexivity|]. split; [exact Hr|].
  exact (speak_not_ready_appends good_env [Text "a"] [Bookmark "b"]
           (mkWorld [Text "x"] PSPlaying voice_a []) eq_refl Hr).
Defined.

(** While the player is not [Ready], speaking [a.add_utterance(b)] leaves
    the same world as speaking [a] and then [b]. *)
Theorem speak_add_utterance_not_ready (env : Env) (a b : SpeechUtterance) (w : World)
  (Hs : env_session_error env = None)
  (Hr : SynthState_from (playback_state w) <> Ready) :
  neosynth_speak env (fst (add_utterance a b)) w =
  neosynth_speak env b (snd (neosynth_speak env a w)).
Proof.
  destruct w as [q ps v l]; simpl in Hr.
  unfold neosynth_speak. simpl.
  rewrite !speak_not_ready_step by assumption. simpl.
  rewrite speak_not_ready_step by assumption. rewrite app_assoc. reflexivity.
Qed.

Lemma speak_add_utterance_not_ready_witness :
  env_session_error good_env = None /\
  SynthState_from (playback_state (mkWorld [] PSPaused voice_a [])) <> Ready /\
  neosynth_speak good_env (fst (add_utterance (mkUtterance [Text "a"]) (mkUtterance [Audio "f.wav"])))
    (mkWorld [] PSPaused voice_a []) =
  neosynth_speak good_env (mkUtterance [Audio "f.wav"])
    (snd (neosynth_speak good_env (mkUtterance [Text "a"]) (mkWorld [] PSPaused voice_a []))).
Proof.
  assert (Hr : SynthState_from (playback_state (mkWorld [] PSPaused voice_a [])) <> Ready)
    by (simpl; discriminate).
  split; [reflexivity|]. split; [exact Hr|].
  exact (speak_add_utterance_not_ready good_env (mkUtterance [Text "a"])
           (mkUtterance [Audio "f.wav"]) (mkWorld [] PSPaused voice_a []) eq_refl Hr).
Defined.

(** What draining a run of bookmarks adds to the log. *)
Definition bookmark_actions (bs : list string) : list Action :=
  flat_map (fun b => [APop (Some (Bookmark b)); AOnBookmarkReached b]) bs.

Definition is_bookmark (e : SpeechElement) : bool :=
  match e with Bookmark _ => true | _ => false end.

Lemma process_queue_bookmarks (env : Env) (bs : list string)
  (rest : list SpeechElement) (ps : MediaPlaybackState) (v : VoiceInfo)
  (l : list Action) :
  process_queue env (mkWorld (map Bookmark bs ++ rest)%list ps v l) =
  process_queue env (mkWorld rest ps v (l ++ bookmark_actions bs)%list).
Proof.
  revert l; induction bs as [|b bs IH]; intros l.
  - simpl. rewrite app_nil_r. reflexivity.
  - simpl. rewrite process_queue_cons. simpl.
    unfold bind at 1, on_bookmark_reached, record; simpl.
    rewrite IH, <- !app_assoc. reflexivity.
Qed.

(** A queue of bookmarks only is drained by one [process_queue] call: every
    bookmark is notified in queue order, then [Ready] is reported and the
    queue is empty; the player is never touched. *)
Theorem process_queue_all_bookmarks (env : Env) (bs : list string)
  (ps : MediaPlaybackState) (v : VoiceInfo) (l : list Action) :
  process_queue env (mkWorld (map Bookmark bs) ps v l) =
  (Ok tt, mkWorld [] ps v
            (l ++ bookmark_actions bs ++ [APop None; AOnStateChanged Ready])%list).
Proof.
  rewrite <- (app_nil_r (map Bookmark bs)).
  rewrite process_queue_bookmarks, process_queue_empty, app_assoc.
  reflexivity.
Qed.

(** One [process_queue] call runs through the leading bookmarks of the
    queue, notifying each in order, and then processes the first element
    that is not a bookmark; the rest of the queue stays queued. *)
Theorem process_queue_bookmarks_then_element (env : Env) (bs : list string)
  (e : SpeechElement) (rest : list SpeechElement) (ps : MediaPlaybackState)
  (v : VoiceInfo) (l : list Action)
  (He : is_bookmark e = false) :
  process_queue env (mkWorld (map Bookmark bs ++ e :: rest)%list ps v l) =
  process_speech_element env (process_queue env) e
    (mkWorld rest ps v (l ++ bookmark_actions bs ++ [APop (Some e)])%list).
Proof.
  rewrite process_queue_bookmarks, process_queue_cons, app_assoc.
  reflexivity.
Qed.

Lemma process_queue_bookmarks_then_element_witness :
  is_bookmark (Text "c") = false /\
  process_queue good_env (mkWorld (map Bookmark ["b1"; "b2"] ++ Text "c" :: [])%list PSNone voice_a []) =
  process_speech_element good_env (process_queue good_env) (Text "c")
    (mkWorld [] PSNone voice_a ([] ++ bookmark_actions ["b1"; "b2"] ++ [APop (Some (Text "c"))])%list).
Proof.
  split; [reflexivity|].
  exact (process_queue_bookmarks_then_element good_env ["b1"; "b2"] (Text "c") []
           PSNone voice_a [] eq_refl).
Defined.

(** When the element [speak] pops from a [Ready] player is a [Text] or
    [Ssml] element whose synthesis fails, [speak] returns the engine's error
    to its caller; the element is consumed (not requeued), no source is set,
    and the rest of the queue stays queued. *)
Theorem speak_synthesis_failure (env : Env) (elems : list SpeechElement) (w : World)
  (t : string) (is_ssml : bool) (rest : list SpeechElement) (e : NeosynthError)
  (Hs : env_session_error env = None)
  (Hr : SynthState_from (playback_state w) = Ready)
  (Hq : (speech_queue w ++ elems)%list = (if is_ssml then Ssml t else Text t) :: rest)
  (Hsyn : env_synthesize env t is_ssml = Err e) :
  speak env elems w =
  (Err e, mkWorld rest (playback_state w) (voice w)
            (log w ++ [APop (Some (if is_ssml then Ssml t else Text t));
                       ASynthesize t is_ssml])%list).
Proof.
  destruct w as [q ps v l]; simpl in Hr, Hq |- *.
  unfold speak, bind at 1. rewrite push_all_spec.
  unfold get_state, check. rewrite Hs.
  unfold bind at 1 2, ret, get_world; simpl. rewrite Hr.
  unfold bind at 1, pop; simpl. rewrite Hq.
  destruct is_ssml; simpl;
    unfold speak_content, generate_speech_stream, bind, record, lift; simpl;
    rewrite Hsyn; rewrite <- app_assoc; reflexivity.
Qed.

Lemma speak_synthesis_failure_witness :
  env_session_error bad_text_env = None /\
  SynthState_from (playback_state (idle_world [])) = Ready /\
  (speech_queue (idle_world []) ++ [Text "bad"; Text "ok"])%list =
    (if false then Ssml "bad" else Text "bad") :: [Text "ok"] /\
  env_synthesize bad_text_env "bad" false = Err synth_error /\
  speak bad_text_env [Text "bad"; Text "ok"] (idle_world []) =
  (Err synth_error, mkWorld [Text "ok"] PSNone voice_a
     ([] ++ [APop (Some (if false then Ssml "bad" else Text "bad"));
             ASynthesize "bad" false])%list).
Proof.
  split; [reflexivity|]. split; [reflexivity|]. split; [reflexivity|].
  split; [reflexivity|].
  exact (speak_synthesis_failure bad_text_env [Text "bad"; Text "ok"] (idle_world [])
           "bad" false [Text "ok"] synth_error eq_refl eq_refl eq_refl eq_refl).
Defined.

(** An [Audio] element is played from its file without any synthesis: the
    file is opened, then set as the source; a failure to open it or to set
    it is returned, with the element consumed and the rest still queued. *)
Theorem process_queue_audio (env : Env) (f : string) (rest : list SpeechElement)
  (ps : MediaPlaybackState) (v : VoiceInfo) (l : list Action) :
  process_queue env (mkWorld (Audio f :: rest) ps v l) =
  match env_open_file env f with
  | Some e => (Err e, mkWorld rest ps v (l ++ [APop (Some (Audio f))])%list)
  | None =>
      match env_set_source env (FromStorageFile f) ps with
      | Ok st =>
          (Ok tt, mkWorld rest st v
                    (l ++ [APop (Some (Audio f)); ASetSource (FromStorageFile f)])%list)
      | Err e =>
          (Err e, mkWorld rest ps v
                    (l ++ [APop (Some (Audio f)); ASetSource (FromStorageFile f)])%list)
      end
  end.
Proof.
  rewrite process_queue_cons. simpl.
  unfold check, bind, fail, ret.
  destruct (env_open_file env f) as [e|]; [reflexivity|].
  unfold player_set_source, bind, record, get_world, lift, set_playback_state; simpl.
  destruct (env_set_source env (FromStorageFile f) ps); simpl;
    rewrite <- app_assoc; reflexivity.
Qed.





Section Drain.

Variable env : Env.
Hypothesis Hsyn : forall t b, is_ok (env_synthesize env t b) = true.
Hypothesis Hset : forall src st, is_ok (env_set_source env src st) = true.



End Drain.




(** Converting errors to Python exceptions loses nothing: distinct
    [NeosynthError]s become distinct exceptions, and none of them is a
    [TypeError]. *)
Theorem pyerr_from_injective :
  (forall e1 e2, pyerr_from e1 = pyerr_from e2 -> e1 = e2) /\
  (forall e msg, pyerr_from e <> PyTypeError msg).
Proof.
  split.
  - intros [m1 c1|m1] [m2 c2|m2]; simpl; intros H; inversion H; reflexivity.
  - intros [m c|m] msg; simpl; discriminate.
Qed.

(** A rate engine with the capability, storing and reading back the rate
    exactly. *)
Definition storing_rate_engine : RateEngine :=
  mkRateEngine (Ok true) (fun opts => Ok opts) (fun _ x => Ok x).

(** C8.  With the prosody capability, when the engine accepts the scaled
    rate [value * 0.06] and reads it back, [set_rate value] succeeds and a
    following [get_rate] returns [value] (exactly, in real arithmetic).
    Without the capability, [get_rate] returns the sentinel [-1.0] and
    [set_rate] fails with an [OperationError], leaving the rate unchanged;
    when the capability probe itself fails, both return its error. *)
Theorem rate_roundtrip_or_sentinel (eng : RateEngine) (opts value : R) :
  match re_prosody eng with
  | Ok true =>
      forall opts',
        re_set_speaking_rate eng opts (value * (6 / 100))%R = Ok opts' ->
        re_speaking_rate eng opts' = Ok (value * (6 / 100))%R ->
        set_rate eng opts value = (Ok tt, opts') /\ get_rate eng opts' = Ok value
  | Ok false =>
      get_rate eng opts = Ok (-1)%R /\
      set_rate eng opts value = (Err (OperationError prosody_error), opts)
  | Err e =>
      get_rate eng opts = Err e /\ set_rate eng opts value = (Err e, opts)
  end.
Proof.
  unfold get_rate, set_rate.
  destruct (re_prosody eng) as [[|]|e]; [|split; reflexivity|split; reflexivity].
  intros opts' Hset Hget. rewrite Hset, Hget. split; [reflexivity|].
  f_equal. field.
Qed.

(** A rate engine without the capability. *)
Definition no_prosody_engine : RateEngine :=
  mkRateEngine (Ok false) (fun opts => Ok opts) (fun _ x => Ok x).

Lemma rate_roundtrip_or_sentinel_witness :
  (get_rate no_prosody_engine 1%R = Ok (-1)%R /\
   set_rate no_prosody_engine 1%R 2%R = (Err (OperationError prosody_error), 1%R)) /\
  re_set_speaking_rate storing_rate_engine 0%R (2 * (6 / 100))%R = Ok (2 * (6 / 100))%R /\
  re_speaking_rate storing_rate_engine (2 * (6 / 100))%R = Ok (2 * (6 / 100))%R /\
  set_rate storing_rate_engine 0%R 2%R = (Ok tt, (2 * (6 / 100))%R) /\
  get_rate storing_rate_engine (2 * (6 / 100))%R = Ok 2%R.
Proof.
  split; [exact (rate_roundtrip_or_sentinel no_prosody_engine 1%R 2%R)|].
  split; [reflexivity|]. split; [reflexivity|].
  exact (rate_roundtrip_or_sentinel storing_rate_engine 0%R 2%R
           (2 * (6 / 100))%R eq_refl eq_refl).
Defined.
